(** * goimports-reviser: the import-block rewriting pipeline and its driver

    A shallow embedding of the two Go programs of the repository:

    - the reviser pipeline ([combineImports], [groupImports], [fixImports]
      and the [main] that chains them), and
    - the command-line driver ([isIgnore], [isFormatFile], [load], the
      per-file [executor] closure and the dispatch at the end of [main]).

    Go strings are byte sequences, modelled by [string] (a list of 8-bit
    [ascii]); [map[string]struct{}] is a [gmap string ()]; slices that are
    only appended to and ranged over are lists. *)

From Stdlib Require Import ZArith String Ascii List Sorted Permutation Lia.
From stdpp Require Import base option list strings gmap sorting.

Set Warnings "-register-all".

Local Open Scope string_scope.
Local Open Scope list_scope.

(** ** The Go library functions the programs call *)

Module GoLib.

(** [strings.Contains(s, substr)]: [substr] occurs in [s] at some offset.
    The empty [substr] occurs in every string. *)
Fixpoint Contains (s substr : string) : bool :=
  String.prefix substr s ||
  match s with
  | EmptyString => false
  | String _ s' => Contains s' substr
  end.

(** [strings.Join(elems, sep)]. *)
Fixpoint Join (elems : list string) (sep : string) : string :=
  match elems with
  | [] => ""
  | [e] => e
  | e :: rest => e ++ sep ++ Join rest sep
  end.

(** [strings.Split(s, sep)] for a one-byte separator: the fields between
    the occurrences of [sep]; a string without [sep] is its own single
    field, so [Split "" ","] is the one-element list [[""]]. *)
Fixpoint Split_go (s : string) (sep : ascii) (cur : string) : list string :=
  match s with
  | EmptyString => [String.rev cur]
  | String c s' =>
      if Ascii.eqb c sep then String.rev cur :: Split_go s' sep ""
      else Split_go s' sep (String c cur)
  end.

Definition Split (s : string) (sep : ascii) : list string := Split_go s sep "".

(** Go compares strings byte by byte; [String.le] is that order. *)
Definition string_le : relation string := String.le.

#[global] Instance string_le_po : PartialOrder string_le := String.le_po.

#[global] Instance string_le_total : Total string_le := String.le_total.

(** [sort.Strings(x)]: sorts [x] in increasing order.  The order is total
    and antisymmetric, so the result is the unique sorted rearrangement of
    [x] (lemma [sort_Strings_unique] below) whatever algorithm is run. *)
Definition sort_Strings (x : list string) : list string :=
  merge_sort string_le x.


(** [filepath.Ext(path)]: the suffix beginning at the final dot in the
    final slash-separated element of [path]; empty if there is no dot.
    The Go loop scans from the end and stops at the first separator. *)
Fixpoint Ext_go (rpath : string) (acc : string) : string :=
  match rpath with
  | EmptyString => ""
  | String c rest =>
      if Ascii.eqb c "/" then ""
      else if Ascii.eqb c "." then String c acc
      else Ext_go rest (String c acc)
  end.

Definition Ext (path : string) : string := Ext_go (String.rev path) "".

End GoLib.

Import GoLib.

(** The double-quote byte.  A Go import path literal keeps its quotes in
    [BasicLit.Value], so the strings handled below carry them. *)
Definition dquote : ascii := ascii_of_nat 34.

(** [lit s] is the source text of the Go string literal whose content is [s]. *)
Definition lit (s : string) : string := String dquote (s ++ String dquote "").

(** ** The part of [go/ast] the programs touch *)

Module GoAst.

Inductive Token := IMPORT | CONST | TYPE | VAR.

Record Ident := { IdentName : string }.

(** The [String] method of a non-nil [Ident] pointer. *)
Definition IdentString (id : Ident) : string := IdentName id.

Record BasicLit := { Value : string }.

(** [Name] is [None] for the nil pointer (no alias written). *)
Record ImportSpec := { Name : option Ident; Path : BasicLit }.

Inductive Expr :=
| EIdent (name : string)
| ESelector (X : Expr) (Sel : string)
| ECall (Fun : Expr) (Args : list Expr)
| ELit (value : string).

(** The [ast.Spec] interface with its three implementations. *)
Inductive Spec :=
| ImportSpecS (i : ImportSpec)
| ValueSpec (Names : list string) (Values : list Expr)
| TypeSpec (TName : string).

(** The [ast.Decl] interface with its three implementations. *)
Inductive Decl :=
| GenDecl (Tok : Token) (Specs : list Spec)
| FuncDecl (FName : string) (Body : list Expr)
| BadDecl.

Record File := { PkgName : string; Decls : list Decl }.

Definition isImportDecl (d : Decl) : bool :=
  match d with GenDecl IMPORT _ => true | _ => false end.

Definition isImportSpec (s : Spec) : bool :=
  match s with ImportSpecS _ => true | _ => false end.

(** What [go/parser] guarantees (and [go/ast] documents for [GenDecl]):
    under [Tok = IMPORT] every spec is an [ImportSpec]. *)
Definition parsedDecl (d : Decl) : bool :=
  match d with
  | GenDecl IMPORT specs => forallb isImportSpec specs
  | _ => true
  end.

Definition parsed (f : File) : bool := forallb parsedDecl (Decls f).

End GoAst.

Import GoAst.

(** ** The reviser pipeline *)

Module Reviser.

Definition projectName : string := "goimport-reviser".

Definition len {A} (l : list A) : Z := Z.of_nat (length l).

Section WithRegistry.

(** [helper.StdPackages], a [map[string]struct{}] of package [helper],
    which is not among the sources: the pipeline is parametric in it. *)
Variable StdPackages : gmap string ().

(** One iteration of the loop of [groupImports]; the state is
    (stdImports, projectImports, generalImports). *)
Definition groupStep (st : list string * list string * list string)
    (imprt : string) : list string * list string * list string :=
  let '(stdImports, projectImports, generalImports) := st in
  match StdPackages !! imprt with
  | Some _ => (stdImports ++ [imprt], projectImports, generalImports)
  | None =>
      if Contains imprt projectName
      then (stdImports, projectImports ++ [imprt], generalImports)
      else (stdImports, projectImports, generalImports ++ [imprt])
  end.

(** Returns (stdImports, projectImports, generalImports), as the source. *)
Definition groupImports (imports : list string)
    : list string * list string * list string :=
  let '(stdImports, projectImports, generalImports) :=
    fold_left groupStep imports ([], [], []) in
  let stdImports := sort_Strings stdImports in
  let generalImports := sort_Strings generalImports in
  let projectImports := sort_Strings projectImports in
  (stdImports, projectImports, generalImports).

End WithRegistry.


(** [&ast.ImportSpec{Path: &ast.BasicLit{Value: v}}]: no [Name]. *)
Definition newImportSpec (v : string) : Spec :=
  ImportSpecS {| Name := None; Path := {| Value := v |} |}.

(** The guard both grouped loops of [fixImports] test after decrementing
    the counter; note that the two loops test the same slice. *)
Definition lastOfGroup (linesCounter : Z) (generalImports : list string) : bool :=
  (linesCounter =? 0)%Z && (0 <? len generalImports)%Z.

(** Body of the loop over [stdImports]; state is (specs, linesCounter). *)
Definition stdStep (generalImports : list string) (st : list Spec * Z)
    (stdImport : string) : list Spec * Z :=
  let '(specs, linesCounter) := st in
  let specs := specs ++ [newImportSpec stdImport] in
  let linesCounter := (linesCounter - 1)%Z in
  if lastOfGroup linesCounter generalImports
  then (specs ++ [newImportSpec ""], linesCounter)
  else (specs, linesCounter).

(** Body of the loop over [generalImports]. *)
Definition generalStep (generalImports : list string) (st : list Spec * Z)
    (generalImport : string) : list Spec * Z :=
  let '(specs, linesCounter) := st in
  let specs := specs ++ [newImportSpec generalImport] in
  let linesCounter := (linesCounter - 1)%Z in
  if lastOfGroup linesCounter generalImports
  then (specs ++ [newImportSpec ""], linesCounter)
  else (specs, linesCounter).

(** Body of the loop over [projectImports]. *)
Definition projectStep (specs : list Spec) (projectImport : string) : list Spec :=
  specs ++ [newImportSpec projectImport].

(** The statements under [if dd.Tok == token.IMPORT] up to the
    assignment: the value stored into [dd.Specs]. *)
Definition importBlock (stdImports generalImports projectImports : list string)
    : list Spec :=
  let specs := [] in
  let linesCounter := len stdImports in
  let '(specs, _) :=
    fold_left (stdStep generalImports) stdImports (specs, linesCounter) in
  let linesCounter := len generalImports in
  let '(specs, _) :=
    fold_left (generalStep generalImports) generalImports (specs, linesCounter) in
  fold_left projectStep projectImports specs.

(** [fixImports] assigns [dd.Specs] of every import declaration in place
    and touches nothing else of the tree. *)
Definition fixDecl (stdImports generalImports projectImports : list string)
    (decl : Decl) : Decl :=
  match decl with
  | GenDecl IMPORT _ =>
      GenDecl IMPORT (importBlock stdImports generalImports projectImports)
  | _ => decl
  end.

Definition fixImports (f : File)
    (stdImports generalImports projectImports : list string) : File :=
  {| PkgName := PkgName f;
     Decls := map (fixDecl stdImports generalImports projectImports) (Decls f) |}.

(** The string [combineImports] appends for one import spec. *)
Definition importSpecStr (importSpec : ImportSpec) : string :=
  match Name importSpec with
  | Some name => Join [IdentString name; Value (Path importSpec)] " "
  | None => Value (Path importSpec)
  end.

(** Inner loop of [combineImports].  The type assertion of
    [spec] to an [ImportSpec] pointer panics on any other spec: [None]. *)
Fixpoint combineSpecs (specs : list Spec) (imports : list string)
    : option (list string) :=
  match specs with
  | [] => Some imports
  | ImportSpecS importSpec :: rest =>
      combineSpecs rest (imports ++ [importSpecStr importSpec])
  | _ :: _ => None
  end.

(** Outer loop of [combineImports]. *)
Fixpoint combineDecls (decls : list Decl) (imports : list string)
    : option (list string) :=
  match decls with
  | [] => Some imports
  | GenDecl IMPORT specs :: rest =>
      match combineSpecs specs imports with
      | Some imports => combineDecls rest imports
      | None => None
      end
  | _ :: rest => combineDecls rest imports
  end.

Definition combineImports (f : File) : option (list string) :=
  combineDecls (Decls f) [].

(** The import specs of a file, in source order, when every spec under an
    import declaration is an import spec. *)
Definition declImportSpecs (d : Decl) : list ImportSpec :=
  match d with
  | GenDecl IMPORT specs =>
      flat_map (fun s => match s with ImportSpecS i => [i] | _ => [] end) specs
  | _ => []
  end.

Definition importSpecsOf (f : File) : list ImportSpec :=
  flat_map declImportSpecs (Decls f).

(** The strings extracted from them. *)
Definition importStrings (f : File) : list string :=
  map importSpecStr (importSpecsOf f).

(** The path literals of the import specs of a list of specs. *)
Definition specValues (specs : list Spec) : list string :=
  flat_map (fun s => match s with
                     | ImportSpecS i => [Value (Path i)]
                     | _ => []
                     end) specs.

Definition nonEmpty {A} (l : list A) : bool :=
  match l with [] => false | _ :: _ => true end.

(** A spec with an empty literal, which prints as a blank line, or nothing. *)
Definition blankIf (b : bool) : list Spec :=
  if b then [newImportSpec ""] else [].

Section WithRegistry.

Variable StdPackages : gmap string ().

(** The three tests of the loop body of [groupImports], as predicates on
    an entry. *)
Definition isStd (imprt : string) : Prop := is_Some (StdPackages !! imprt).

Definition isProject (imprt : string) : Prop :=
  StdPackages !! imprt = None /\ Contains imprt projectName = true.

Definition isGeneral (imprt : string) : Prop :=
  StdPackages !! imprt = None /\ Contains imprt projectName = false.

#[global] Instance isStd_dec x : Decision (isStd x).
Proof. unfold isStd; apply _. Defined.

#[global] Instance isProject_dec x : Decision (isProject x).
Proof. unfold isProject; apply _. Defined.

#[global] Instance isGeneral_dec x : Decision (isGeneral x).
Proof. unfold isGeneral; apply _. Defined.

(** The three groups of a file: its extracted strings, filtered by the
    tests of the loop and sorted. *)
Definition stdOf (f : File) : list string :=
  sort_Strings (filter isStd (importStrings f)).

Definition generalOf (f : File) : list string :=
  sort_Strings (filter isGeneral (importStrings f)).

Definition projectOf (f : File) : list string :=
  sort_Strings (filter isProject (importStrings f)).

(** [main] between parsing and printing: extract, group, rewrite. *)
Definition revise (f : File) : option File :=
  match combineImports f with
  | Some imports =>
      let '(stdImports, projectImports, generalImports) :=
        groupImports StdPackages imports in
      Some (fixImports f stdImports generalImports projectImports)
  | None => None
  end.

End WithRegistry.

End Reviser.

Import Reviser.

(** ** Printing and re-reading a tree

    [generateFile] hands the tree to [go/printer]; a second run starts from
    [go/parser] on that text.  Only the import declarations matter to the
    pipeline, so the text is kept as one chunk per declaration: the lines of
    an import declaration, or the declaration itself for any other. *)

Module GoText.

Inductive Chunk :=
| ImportLines (lines : list string)
| OtherDecl (d : Decl).

Record Text := { TextPkg : string; Chunks : list Chunk }.

(** The printer writes an import spec as its name, a blank and its path
    literal, or the path literal alone; an empty literal leaves the line
    empty. *)
Definition printSpec (i : ImportSpec) : string :=
  match Name i with
  | Some name => (IdentName name ++ " " ++ Value (Path i))%string
  | None => Value (Path i)
  end.

Fixpoint printSpecs (specs : list Spec) : option (list string) :=
  match specs with
  | [] => Some []
  | ImportSpecS i :: rest =>
      match printSpecs rest with
      | Some lines => Some (printSpec i :: lines)
      | None => None
      end
  | _ :: _ => None
  end.

Definition printDecl (d : Decl) : Chunk :=
  match d with
  | GenDecl IMPORT specs =>
      match printSpecs specs with
      | Some lines => ImportLines lines
      | None => OtherDecl d
      end
  | _ => OtherDecl d
  end.

(** [generateFile(fset, file)]: the printed file. *)
Definition generateFile (f : File) : Text :=
  {| TextPkg := PkgName f; Chunks := map printDecl (Decls f) |}.

(** Splits a line at its first blank. *)
Fixpoint cutAtBlank (s acc : string) : option (string * string) :=
  match s with
  | EmptyString => None
  | String c s' =>
      if Ascii.eqb c " " then Some (String.rev acc, s')
      else cutAtBlank s' (String c acc)
  end.

(** The parser reads a non-empty line of an import declaration as an
    optional name followed by the path literal; an empty line is no spec. *)
Definition parseLine (line : string) : option Spec :=
  if String.eqb line "" then None
  else
    match cutAtBlank line "" with
    | Some (name, path) =>
        Some (ImportSpecS {| Name := Some {| IdentName := name |};
                             Path := {| Value := path |} |})
    | None => Some (newImportSpec line)
    end.

Definition parseChunk (c : Chunk) : Decl :=
  match c with
  | ImportLines lines => GenDecl IMPORT (omap parseLine lines)
  | OtherDecl d => d
  end.

Definition parseFile (t : Text) : File :=
  {| PkgName := TextPkg t; Decls := map parseChunk (Chunks t) |}.

(** A line that is not blank. *)
Definition nonBlank (line : string) : Prop := line <> "".

#[global] Instance nonBlank_dec line : Decision (nonBlank line).
Proof. unfold nonBlank; apply _. Defined.

(** A declaration after [fixImports], printed and read back. *)
Definition reread (std gen proj : list string) (d : Decl) : Decl :=
  parseChunk (printDecl (fixDecl std gen proj d)).

(** The number of import declarations among [decls]. *)
Fixpoint countImportDecls (decls : list Decl) : nat :=
  match decls with
  | [] => 0
  | d :: rest => (if isImportDecl d then 1 else 0) + countImportDecls rest
  end.

Section WithRegistry.

Variable StdPackages : gmap string ().

(** One run from text to text: parse, revise, print.  [None] when the
    pipeline panics. *)
Definition run (t : Text) : option Text :=
  match revise StdPackages (parseFile t) with
  | Some f => Some (generateFile f)
  | None => None
  end.

End WithRegistry.

End GoText.

Import GoText.

(** ** The specification's wording, for comparison with the code *)

Module SpecWords.

Inductive ImportGroup := Standard | General | Project.

(** The ordered decision of the classifier as the specification words it,
    with a module name and a list of local prefixes. *)
Definition spec_classify (registry : gmap string ()) (moduleName : string)
    (localPrefixes : list string) (path : string) : ImportGroup :=
  match registry !! path with
  | Some _ => Standard
  | None =>
      if Contains path moduleName
         || existsb (fun p => String.prefix p path) localPrefixes
      then Project
      else General
  end.







End SpecWords.

Import SpecWords.

(** ** The command-line driver *)

Module Cli.

(** What a run does to the outside world, in order.  The progress bar and
    the log lines are not recorded. *)
Inductive Event :=
| EvExecute (filePath : string)
| EvStdout (text : string)
| EvWriteFile (filePath : string) (content : string).

(** A step either goes on with a value or ends the process ([os.Exit],
    [log.Fatalf], a panic). *)
Inductive Result (A : Type) :=
| Go (a : A)
| Halt.

Arguments Go {A} a.
Arguments Halt {A}.

(** Computations over the trace of events. *)
Definition M (A : Type) : Type := list Event -> Result A * list Event.

Definition ret {A} (a : A) : M A := fun tr => (Go a, tr).

Definition bind {A B} (m : M A) (k : A -> M B) : M B :=
  fun tr =>
    match m tr with
    | (Go a, tr') => k a tr'
    | (Halt, tr') => (Halt, tr')
    end.

Definition halt {A} : M A := fun tr => (Halt, tr).

Definition emit (e : Event) : M unit := fun tr => (Go tt, tr ++ [e]).

Definition history : M (list Event) := fun tr => (Go tr, tr).

Notation "x <- m ;; k" := (bind m (fun x => k))
  (at level 100, m at next level, right associativity).
Notation "m ;;; k" := (bind m (fun _ => k))
  (at level 100, right associativity).

(** The members of [reviser.Options] the driver passes. *)
Inductive ReviserOption :=
| OptionRemoveUnusedImports
| OptionUseAliasForVersionSuffix
| OptionFormat.

(** The command-line flags after [flag.Parse]. *)
Record Flags := {
  ignoreDir : string;
  dirPath : string;
  filePath : string;
  projectNameFlag : string;
  localPkgPrefixes : string;
  output : string;
  shouldShowVersion : option bool;
  shouldRemoveUnusedImports : bool;
  shouldSetAlias : bool;
  shouldFormat : bool
}.

(** A file tree as [filepath.Walk] reports it: every node carries the path
    handed to the walk function. *)
Inductive FsNode :=
| FsFile (path : string)
| FsDir (path : string) (entries : list FsNode).

(** The collaborators outside the sources: the file system, package
    [module] and [reviser.Execute].  [Execute] sees the events so far, since
    it reads files the driver may have rewritten; it returns
    (formattedOutput, hasChange, err). *)
Record Env := {
  statIsDir : string -> option bool;
  lstatTree : string -> option FsNode;
  moduleNameOf : string -> option string;
  Execute : list Event -> string -> string -> string -> list ReviserOption
            -> string * bool * option string
}.

(** [isIgnore]: the first matching entry answers [true]. *)
Fixpoint isIgnore (ignoreDirs : list string) (path : string) : bool :=
  match ignoreDirs with
  | [] => false
  | val :: rest => if Contains path val then true else isIgnore rest path
  end.

Definition isFormatFile (p : string) : bool :=
  let e := Ext p in
  if String.eqb e ".go" then true else false.

(** [validateRequiredParam]: [true] stands for a non-nil error. *)
Definition validateRequiredParam (filePath : string) : bool :=
  String.eqb filePath "".

(** [validateDir]: [true] stands for a non-nil error. *)
Definition validateDir (env : Env) (p : string) : bool :=
  if String.eqb p "./..." then false
  else
    match statIsDir env p with
    | None => true
    | Some isDir => negb isDir
    end.

(** [determineProjectName]: [None] stands for a non-nil error. *)
Definition determineProjectName (env : Env) (projectName filePath : string)
    : option string :=
  if String.eqb projectName "" then moduleNameOf env filePath
  else Some projectName.

(** [filepath.Walk] without I/O errors below the root: the walk function
    sees a directory, then its entries in order. *)
Fixpoint walk (fn : string -> bool -> M unit) (node : FsNode) : M unit :=
  match node with
  | FsFile path => fn path false
  | FsDir path entries =>
      fn path true ;;;
      (fix walkEntries (es : list FsNode) : M unit :=
         match es with
         | [] => ret tt
         | e :: es' => walk fn e ;;; walkEntries es'
         end) entries
  end.

(** [load]: the walk function, [visit], returns early on a directory and
    calls the executor on anything else.  When the root cannot be stat-ed, the walk
    function receives a nil [info] and dereferences it: a panic. *)
Definition visit (executor : string -> M unit) (path : string) (isDir : bool)
    : M unit :=
  if isDir then ret tt else executor path.

Definition load (env : Env) (rootPath : string) (executor : string -> M unit)
    : M unit :=
  match lstatTree env rootPath with
  | None => halt
  | Some tree => walk (visit executor) tree
  end.

Definition options (fl : Flags) : list ReviserOption :=
  let options := [] in
  let options :=
    if shouldRemoveUnusedImports fl
    then options ++ [OptionRemoveUnusedImports] else options in
  let options :=
    if shouldSetAlias fl
    then options ++ [OptionUseAliasForVersionSuffix] else options in
  if shouldFormat fl then options ++ [OptionFormat] else options.

(** The [executor] closure of [main]. *)
Definition executor (env : Env) (fl : Flags) (ignoreDirs : list string)
    (projectName : string) (filePath : string) : M unit :=
  if isIgnore ignoreDirs filePath then ret tt
  else if negb (isFormatFile filePath) then ret tt
  else
    tr <- history ;;
    let '(formattedOutput, hasChange, err) :=
      Execute env tr projectName filePath (localPkgPrefixes fl) (options fl) in
    emit (EvExecute filePath) ;;;
    match err with
    | Some _ => halt
    | None =>
        if String.eqb (output fl) "stdout" then emit (EvStdout formattedOutput)
        else if String.eqb (output fl) "file" then
          if negb hasChange then ret tt
          else emit (EvStdout filePath) ;;;
               emit (EvWriteFile filePath formattedOutput)
        else halt
    end.

(** [main]. *)
Definition main (env : Env) (fl : Flags) : M unit :=
  let ignoreDirs := Split (ignoreDir fl) "," in
  match shouldShowVersion fl with
  | Some true => ret tt
  | _ =>
      let err := validateRequiredParam (filePath fl) in
      let errDir := validateDir env (dirPath fl) in
      if err && errDir then halt
      else
        match determineProjectName env (projectNameFlag fl) (filePath fl) with
        | None => halt
        | Some projectName =>
            let executor := executor env fl ignoreDirs projectName in
            (if String.eqb (dirPath fl) "./..." then load env "./" executor
             else if String.eqb (dirPath fl) "./" then load env (dirPath fl) executor
             else if negb (String.eqb (dirPath fl) "") then load env (dirPath fl) executor
             else executor (filePath fl)) ;;;
            executor (filePath fl)
        end
  end.

(** The paths handed to [reviser.Execute] during a run, in call order. *)
Definition executed (tr : list Event) : list string :=
  omap (fun e => match e with EvExecute p => Some p | _ => None end) tr.

Definition runMain (env : Env) (fl : Flags) : list Event := snd (main env fl []).


(** The paths the executor lets through to [reviser.Execute]. *)
Definition accepted (ignoreDirs : list string) (path : string) : bool :=
  negb (isIgnore ignoreDirs path) && isFormatFile path.

(** A run in which nothing ends the process: [reviser.Execute] returns no
    error and the output flag has one of its two values. *)
Definition quiet (env : Env) (fl : Flags) : Prop :=
  (forall tr projectName path prefixes opts,
     (Execute env tr projectName path prefixes opts).2 = None) /\
  (output fl = "stdout" \/ output fl = "file").

(** The root [main] walks for a directory flag: the first case of its
    dispatch replaces [./...] by [./]. *)
Definition walkRoot (dirPath : string) : string :=
  if String.eqb dirPath "./..." then "./" else dirPath.

(** What one call of the executor adds to the trace. *)
Definition executorEvents (env : Env) (fl : Flags) (ignoreDirs : list string)
    (projectName path : string) (tr : list Event) : list Event :=
  if accepted ignoreDirs path then
    EvExecute path ::
    match Execute env tr projectName path (localPkgPrefixes fl) (options fl) with
    | (formattedOutput, hasChange, None) =>
        if String.eqb (output fl) "stdout" then [EvStdout formattedOutput]
        else if String.eqb (output fl) "file" then
          if hasChange then [EvStdout path; EvWriteFile path formattedOutput] else []
        else []
    | (_, _, Some _) => []
    end
  else [].

End Cli.

(** ** Sample inputs *)

Module Samples.

(** A small registry with the shape of [helper.StdPackages]: quoted paths
    of standard packages. *)
Definition sampleStd : gmap string () :=
  {[ lit "fmt" := (); lit "os" := (); lit "strings" := () ]}.

Definition fmtPath : string := lit "fmt".
Definition osPath : string := lit "os".
Definition errorsPath : string := lit "github.com/pkg/errors".
Definition helperPath : string := lit "github.com/incu6us/goimport-reviser/helper".

(** A path under a local prefix that does not contain the project name. *)
Definition toolsPath : string := lit "example.com/tools/lint".
Definition toolsPrefix : string := String dquote "example.com/tools".

Definition unusedPath : string := lit "example.com/proj/unused".

Definition importOf (path : string) : Spec :=
  ImportSpecS {| Name := None; Path := {| Value := path |} |}.

Definition aliasedImportOf (alias path : string) : Spec :=
  ImportSpecS {| Name := Some {| IdentName := alias |};
                 Path := {| Value := path |} |}.

(** A [main] function whose body is the call [fmt.Println] of a literal. *)
Definition printlnMain : Decl :=
  FuncDecl "main"
    [ECall (ESelector (EIdent "fmt") "Println") [ELit (lit "hello")]].

(** One import declaration naming the same path twice. *)
Definition dupFile : File :=
  {| PkgName := "main";
     Decls := [GenDecl IMPORT [importOf fmtPath; importOf fmtPath]; printlnMain] |}.

(** Imports [fmt] and an unused package; only [fmt.Println] is referenced. *)
Definition unusedFile : File :=
  {| PkgName := "main";
     Decls := [GenDecl IMPORT [importOf fmtPath; importOf unusedPath]; printlnMain] |}.


(** A file without any import declaration. *)
Definition noImportFile : File :=
  {| PkgName := "main";
     Decls := [GenDecl VAR [ValueSpec ["x"] [ELit "1"]]; FuncDecl "main" []] |}.




(** Aliased and plain imports side by side. *)
Definition aliasFile : File :=
  {| PkgName := "main";
     Decls := [GenDecl IMPORT [aliasedImportOf "str" (lit "strings");
                               importOf fmtPath;
                               aliasedImportOf "errs" errorsPath];
               printlnMain] |}.

(** Two import declarations, as printed text. *)
Definition twoDeclText : Text :=
  {| TextPkg := "main";
     Chunks := [ImportLines [fmtPath]; ImportLines [osPath]; OtherDecl printlnMain] |}.

(** One general import, as printed text. *)
Definition generalOnlyText : Text :=
  {| TextPkg := "main"; Chunks := [ImportLines [errorsPath]; OtherDecl printlnMain] |}.

(** A standard and a project import, no general one, as printed text. *)
Definition stdProjectText : Text :=
  {| TextPkg := "main";
     Chunks := [ImportLines [helperPath; fmtPath]; OtherDecl printlnMain] |}.

(** What the pipeline prints for [twoDeclText], and what it prints when run
    again on that. *)
Definition twoDeclOnce : Text :=
  {| TextPkg := "main";
     Chunks := [ImportLines [fmtPath; osPath]; ImportLines [fmtPath; osPath];
                OtherDecl printlnMain] |}.

Definition twoDeclTwice : Text :=
  {| TextPkg := "main";
     Chunks := [ImportLines [fmtPath; fmtPath; osPath; osPath];
                ImportLines [fmtPath; fmtPath; osPath; osPath];
                OtherDecl printlnMain] |}.

(** A run of the driver on one file, named by the file-path flag. *)
Definition oneFileFlags : Cli.Flags :=
  {| Cli.ignoreDir := "vendor";
     Cli.dirPath := "";
     Cli.filePath := "main.go";
     Cli.projectNameFlag := "example.com/proj";
     Cli.localPkgPrefixes := "";
     Cli.output := "file";
     Cli.shouldShowVersion := None;
     Cli.shouldRemoveUnusedImports := false;
     Cli.shouldSetAlias := false;
     Cli.shouldFormat := false |}.

(** The same without the ignore-dir flag, which then has its default. *)
Definition defaultIgnoreFlags : Cli.Flags :=
  {| Cli.ignoreDir := "";
     Cli.dirPath := "";
     Cli.filePath := "main.go";
     Cli.projectNameFlag := "example.com/proj";
     Cli.localPkgPrefixes := "";
     Cli.output := "file";
     Cli.shouldShowVersion := None;
     Cli.shouldRemoveUnusedImports := false;
     Cli.shouldSetAlias := false;
     Cli.shouldFormat := false |}.

(** A run of the driver on the directory [./] that also names one of its
    files by the file-path flag. *)
Definition dirFlags : Cli.Flags :=
  {| Cli.ignoreDir := "vendor";
     Cli.dirPath := "./";
     Cli.filePath := "a.go";
     Cli.projectNameFlag := "example.com/proj";
     Cli.localPkgPrefixes := "";
     Cli.output := "file";
     Cli.shouldShowVersion := None;
     Cli.shouldRemoveUnusedImports := false;
     Cli.shouldSetAlias := false;
     Cli.shouldFormat := false |}.

(** A working directory with two Go files and a text file; [Execute]
    succeeds and reports no change. *)
Definition sampleEnv : Cli.Env :=
  {| Cli.statIsDir := fun p => if String.eqb p "./" then Some true else None;
     Cli.lstatTree := fun p =>
       if String.eqb p "./"
       then Some (Cli.FsDir "./"
                    [Cli.FsFile "a.go";
                     Cli.FsDir "sub" [Cli.FsFile "sub/b.go"; Cli.FsFile "sub/notes.txt"]])
       else None;
     Cli.moduleNameOf := fun _ => None;
     Cli.Execute := fun _ _ _ _ _ => ("", false, None) |}.

(** [Execute] succeeds and reports a change. *)
Definition changingEnv : Cli.Env :=
  {| Cli.statIsDir := fun _ => None;
     Cli.lstatTree := fun _ => None;
     Cli.moduleNameOf := fun _ => None;
     Cli.Execute := fun _ _ _ _ _ => ("package main", true, None) |}.


(** A run that names both a file and a directory that does not exist. *)
Definition missingDirFlags : Cli.Flags :=
  {| Cli.ignoreDir := "vendor";
     Cli.dirPath := "./gone";
     Cli.filePath := "main.go";
     Cli.projectNameFlag := "example.com/proj";
     Cli.localPkgPrefixes := "";
     Cli.output := "file";
     Cli.shouldShowVersion := None;
     Cli.shouldRemoveUnusedImports := false;
     Cli.shouldSetAlias := false;
     Cli.shouldFormat := false |}.

End Samples.

Import Samples.


(** * Properties *)

(** ** The order of Go strings and [sort.Strings] *)

(** The order is the byte-wise lexicographic one. *)
Lemma string_le_empty (t : string) : string_le "" t.
Proof. destruct t; exact I. Qed.

Lemma string_le_cons (a b : ascii) (s t : string) :
  string_le (String a s) (String b t) <->
  (N_of_ascii a < N_of_ascii b)%N \/ (a = b /\ string_le s t).
Proof.
  unfold string_le, String.le, String.leb; simpl. unfold Ascii.compare.
  destruct (N.compare_spec (N_of_ascii a) (N_of_ascii b)) as [He|Hl|Hg].
  - assert (a = b) as -> by (rewrite <- (ascii_N_embedding a), He; apply ascii_N_embedding).
    split; [intros H; right; split; [done|exact H] | intros [H|[_ H]]; [lia|exact H]].
  - split; [by left | done].
  - split; [done | intros [H|[-> _]]; lia].
Qed.

Lemma string_le_cons_empty (a : ascii) (s : string) : ~ string_le (String a s) "".
Proof. unfold string_le, String.le, String.leb; simpl. auto. Qed.

Lemma sort_Strings_Sorted (x : list string) : Sorted string_le (sort_Strings x).
Proof. apply Sorted_merge_sort, _. Qed.

Lemma sort_Strings_Permutation (x : list string) : sort_Strings x ≡ₚ x.
Proof. apply merge_sort_Permutation. Qed.

(** Any sorted rearrangement of [x] is what [sort.Strings] leaves in [x]. *)
Lemma sort_Strings_unique (x y : list string) :
  Sorted string_le y -> y ≡ₚ x -> sort_Strings x = y.
Proof.
  intros Hs Hp. apply (Sorted_unique string_le); [apply sort_Strings_Sorted|done|].
  by rewrite sort_Strings_Permutation.
Qed.

Lemma sort_Strings_sorted_id (x : list string) :
  Sorted string_le x -> sort_Strings x = x.
Proof. intros; by apply sort_Strings_unique. Qed.

Lemma sort_Strings_nil : sort_Strings [] = [].
Proof. reflexivity. Qed.

Lemma elem_of_sort_Strings (s : string) (x : list string) :
  s ∈ sort_Strings x <-> s ∈ x.
Proof. by rewrite sort_Strings_Permutation. Qed.


(** ** [groupImports] *)

Section GroupImports.

Variable StdPackages : gmap string ().

(** The loop appends each entry to exactly one of the three slices. *)
Lemma groupStep_fold (imports std proj gen : list string) :
  fold_left (groupStep StdPackages) imports (std, proj, gen) =
  (std ++ filter (isStd StdPackages) imports,
   proj ++ filter (isProject StdPackages) imports,
   gen ++ filter (isGeneral StdPackages) imports).
Proof.
  revert std proj gen; induction imports as [|x l IH]; intros std proj gen; simpl.
  - by rewrite !app_nil_r.
  - rewrite !filter_cons. unfold groupStep at 1.
    destruct (StdPackages !! x) as [u|] eqn:Hx.
    + rewrite IH. rewrite decide_True by (by eexists).
      rewrite decide_False by (intros [? _]; congruence).
      rewrite decide_False by (intros [? _]; congruence).
      by rewrite <- app_assoc.
    + rewrite decide_False by (intros [? ?]; congruence).
      destruct (Contains x projectName) eqn:Hc; rewrite IH.
      * rewrite decide_True by done. rewrite decide_False by (intros [_ ?]; congruence).
        by rewrite <- app_assoc.
      * rewrite decide_False by (intros [_ ?]; congruence). rewrite decide_True by done.
        by rewrite <- app_assoc.
Qed.

Lemma groupImports_eq (imports : list string) :
  groupImports StdPackages imports =
  (sort_Strings (filter (isStd StdPackages) imports),
   sort_Strings (filter (isProject StdPackages) imports),
   sort_Strings (filter (isGeneral StdPackages) imports)).
Proof. unfold groupImports. by rewrite groupStep_fold. Qed.

End GroupImports.


(** Where an entry ends up, by the tests of the loop. *)
Lemma elem_of_groupImports
    (StdPackages : gmap string ()) (imports : list string) (imprt : string) :
  (imprt ∈ (groupImports StdPackages imports).1.1 <->
     imprt ∈ imports /\ isStd StdPackages imprt) /\
  (imprt ∈ (groupImports StdPackages imports).1.2 <->
     imprt ∈ imports /\ isProject StdPackages imprt) /\
  (imprt ∈ (groupImports StdPackages imports).2 <->
     imprt ∈ imports /\ isGeneral StdPackages imprt).
Proof.
  rewrite groupImports_eq; simpl.
  rewrite !elem_of_sort_Strings, !list_elem_of_filter. tauto.
Qed.

(** C1 (amended): every extracted entry is classified by the ordered
    decision of the loop of [groupImports]: an entry found in the registry
    goes to the standard group; otherwise an entry that contains the project
    name goes to the project group; otherwise it goes to the general group.
    No list of local prefixes takes part. *)
Theorem C1_classification_ordered_decision
    (StdPackages : gmap string ()) (imports : list string) (imprt : string) :
  (imprt ∈ (groupImports StdPackages imports).1.1 <->
     imprt ∈ imports /\ is_Some (StdPackages !! imprt)) /\
  (imprt ∈ (groupImports StdPackages imports).1.2 <->
     imprt ∈ imports /\ StdPackages !! imprt = None /\
     Contains imprt projectName = true) /\
  (imprt ∈ (groupImports StdPackages imports).2 <->
     imprt ∈ imports /\ StdPackages !! imprt = None /\
     Contains imprt projectName = false).
Proof.
  rewrite groupImports_eq; simpl.
  rewrite !elem_of_sort_Strings, !list_elem_of_filter.
  unfold isStd, isProject, isGeneral. tauto.
Qed.

(** C1 (as stated) fails: a path that starts with a local prefix and does
    not contain the project name is Project by the specification's decision,
    and the code files it under the general group. *)
Lemma C1_local_prefix_counterexample :
  spec_classify sampleStd projectName [toolsPrefix] toolsPath = Project /\
  groupImports sampleStd [toolsPath] = ([], [], [toolsPath]).
Proof. split; vm_compute; reflexivity. Qed.



(** ** [fixImports] *)

Lemma len_cons {A} (x : A) (l : list A) : len (x :: l) = (len l + 1)%Z.
Proof. unfold len; simpl length; lia. Qed.

Lemma len_pos_nonEmpty {A} (l : list A) : (0 <? len l)%Z = nonEmpty l.
Proof.
  destruct l; [reflexivity|]. rewrite len_cons. simpl nonEmpty.
  apply Z.ltb_lt. unfold len. lia.
Qed.

Lemma len_zero_nonEmpty {A} (l : list A) : (len l =? 0)%Z = negb (nonEmpty l).
Proof.
  destruct l; [reflexivity|]. rewrite len_cons. simpl nonEmpty.
  apply Z.eqb_neq. unfold len. lia.
Qed.

(** Both grouped loops run the same body: the guard of the second loop
    reads [generalImports] as the first one does. *)
Lemma generalStep_stdStep (generalImports : list string) :
  generalStep generalImports = stdStep generalImports.
Proof. reflexivity. Qed.

Lemma stdStep_eq (generalImports : list string) (specs : list Spec)
    (linesCounter : Z) (stdImport : string) :
  stdStep generalImports (specs, linesCounter) stdImport =
  (specs ++ [newImportSpec stdImport]
         ++ blankIf (lastOfGroup (linesCounter - 1) generalImports),
   (linesCounter - 1)%Z).
Proof.
  unfold stdStep. destruct (lastOfGroup _ _); simpl.
  - by rewrite <- app_assoc.
  - done.
Qed.

(** A grouped loop started with the counter at the length of what is left
    appends the entries and, after the last one, a blank spec when
    [generalImports] is not empty. *)
Lemma stdStep_fold (generalImports rest : list string) (specs : list Spec) :
  fold_left (stdStep generalImports) rest (specs, len rest) =
  (specs ++ map newImportSpec rest
         ++ blankIf (nonEmpty rest && nonEmpty generalImports), 0%Z).
Proof.
  revert specs; induction rest as [|x rest IH]; intros specs.
  - simpl. by rewrite app_nil_r.
  - cbn [fold_left]. rewrite stdStep_eq. unfold lastOfGroup.
    rewrite len_cons. replace (len rest + 1 - 1)%Z with (len rest) by lia.
    rewrite len_zero_nonEmpty, len_pos_nonEmpty.
    destruct rest as [|y rest'].
    + simpl. destruct (nonEmpty generalImports); simpl; by rewrite <- ?app_assoc.
    + rewrite IH. simpl. by rewrite <- !app_assoc.
Qed.

Lemma projectStep_fold (projectImports : list string) (specs : list Spec) :
  fold_left projectStep projectImports specs =
  specs ++ map newImportSpec projectImports.
Proof.
  revert specs; induction projectImports as [|x l IH]; intros specs; simpl.
  - by rewrite app_nil_r.
  - rewrite IH. unfold projectStep. by rewrite <- app_assoc.
Qed.

(** The block stored into every import declaration. *)
Lemma importBlock_eq (stdImports generalImports projectImports : list string) :
  importBlock stdImports generalImports projectImports =
  map newImportSpec stdImports
  ++ blankIf (nonEmpty stdImports && nonEmpty generalImports)
  ++ map newImportSpec generalImports
  ++ blankIf (nonEmpty generalImports)
  ++ map newImportSpec projectImports.
Proof.
  unfold importBlock. rewrite stdStep_fold, generalStep_stdStep, stdStep_fold.
  rewrite projectStep_fold, andb_diag. simpl. by rewrite <- !app_assoc.
Qed.

Lemma specValues_app (l1 l2 : list Spec) :
  specValues (l1 ++ l2) = specValues l1 ++ specValues l2.
Proof. unfold specValues. by rewrite flat_map_app. Qed.

Lemma specValues_newImportSpec (l : list string) :
  specValues (map newImportSpec l) = l.
Proof. induction l as [|x l IH]; simpl; [done|]. by f_equal. Qed.

Lemma specValues_blankIf (b : bool) :
  specValues (blankIf b) = if b then [""] else [].
Proof. by destruct b. Qed.

Lemma specValues_importBlock (stdImports generalImports projectImports : list string) :
  specValues (importBlock stdImports generalImports projectImports) =
  stdImports
  ++ (if nonEmpty stdImports && nonEmpty generalImports then [""] else [])
  ++ generalImports
  ++ (if nonEmpty generalImports then [""] else [])
  ++ projectImports.
Proof.
  rewrite importBlock_eq, !specValues_app, !specValues_newImportSpec.
  by rewrite !specValues_blankIf.
Qed.

(** Every spec of the block is built by [newImportSpec]: none has a name. *)
Lemma importBlock_unnamed (stdImports generalImports projectImports : list string)
    (s : Spec) :
  s ∈ importBlock stdImports generalImports projectImports ->
  exists v, s = newImportSpec v /\
    (v = "" \/ v ∈ stdImports \/ v ∈ generalImports \/ v ∈ projectImports).
Proof.
  rewrite importBlock_eq, !elem_of_app, !list_elem_of_fmap.
  intros [(v&->&?)|[Hb|[(v&->&?)|[Hb|(v&->&?)]]]]; eauto 6;
    (destruct (_ : bool) in Hb; simpl in Hb;
     [apply list_elem_of_singleton in Hb as ->; eauto | by apply elem_of_nil in Hb]).
Qed.


Lemma fixImports_Decls (f : File) (std gen proj : list string) :
  Decls (fixImports f std gen proj) = map (fixDecl std gen proj) (Decls f).
Proof. reflexivity. Qed.

Lemma fixDecl_other (std gen proj : list string) (d : Decl) :
  isImportDecl d = false -> fixDecl std gen proj d = d.
Proof. by destruct d as [[] ?| |]. Qed.

Lemma fixDecl_import (std gen proj : list string) (d : Decl) :
  isImportDecl d = true ->
  fixDecl std gen proj d = GenDecl IMPORT (importBlock std gen proj).
Proof. by destruct d as [[] ?| |]. Qed.

(** ** [combineImports] and the whole pipeline *)

Lemma combineSpecs_eq (specs : list Spec) (imports : list string) :
  combineSpecs specs imports =
  if forallb isImportSpec specs
  then Some (imports ++ map importSpecStr (declImportSpecs (GenDecl IMPORT specs)))
  else None.
Proof.
  revert imports; induction specs as [|s specs IH]; intros imports; simpl.
  - by rewrite app_nil_r.
  - destruct s as [i| |]; simpl; [|done..].
    rewrite IH. destruct (forallb _ _); [|done]. simpl.
    by rewrite <- app_assoc.
Qed.

Lemma combineDecls_eq (decls : list Decl) (imports : list string) :
  combineDecls decls imports =
  if forallb parsedDecl decls
  then Some (imports ++ map importSpecStr (flat_map declImportSpecs decls))
  else None.
Proof.
  revert imports; induction decls as [|d decls IH]; intros imports.
  - simpl. by rewrite app_nil_r.
  - destruct d as [tok specs| |]; [destruct tok|..];
      cbn [combineDecls forallb parsedDecl flat_map declImportSpecs andb app];
      rewrite ?IH; try done.
    rewrite combineSpecs_eq. destruct (forallb isImportSpec specs); [|done].
    rewrite IH. cbn [andb]. destruct (forallb parsedDecl decls); [|done].
    by rewrite map_app, app_assoc.
Qed.

(** The extractor never drops nor merges entries: on a parsed tree it
    returns the string of every import spec, in source order; it panics on
    any other tree. *)
Lemma combineImports_eq (f : File) :
  combineImports f = if parsed f then Some (importStrings f) else None.
Proof. unfold combineImports. by rewrite combineDecls_eq. Qed.

Lemma combineImports_parsed (f : File) :
  parsed f = true -> combineImports f = Some (importStrings f).
Proof. intros H. by rewrite combineImports_eq, H. Qed.

Section Pipeline.

Variable StdPackages : gmap string ().

Lemma revise_eq (f : File) :
  revise StdPackages f =
  if parsed f
  then Some (fixImports f (stdOf StdPackages f) (generalOf StdPackages f) (projectOf StdPackages f))
  else None.
Proof.
  unfold revise. rewrite combineImports_eq. destruct (parsed f); [|done].
  by rewrite groupImports_eq.
Qed.

Lemma revise_parsed (f : File) :
  parsed f = true ->
  revise StdPackages f = Some (fixImports f (stdOf StdPackages f) (generalOf StdPackages f) (projectOf StdPackages f)).
Proof. intros H. by rewrite revise_eq, H. Qed.

(** Each extracted entry sits in exactly one group, as often as extracted. *)
Lemma groups_Permutation (f : File) :
  stdOf StdPackages f ++ generalOf StdPackages f ++ projectOf StdPackages f ≡ₚ importStrings f.
Proof.
  unfold stdOf, generalOf, projectOf. rewrite !sort_Strings_Permutation.
  induction (importStrings f) as [|x l IH]; [done|].
  etrans; [|apply Permutation_skip, IH].
  rewrite !filter_cons.
  destruct (decide (isStd StdPackages x)) as [Hs|Hs].
  - rewrite decide_False, decide_False; [done| |];
      unfold isStd in Hs; intros [? _]; destruct Hs; congruence.
  - assert (StdPackages !! x = None) as Hn.
    { unfold isStd in Hs. destruct (StdPackages !! x) eqn:E; [|done].
      destruct Hs; eauto. }
    destruct (Contains x projectName) eqn:Hc.
    + rewrite decide_False by (intros [_ ?]; congruence).
      rewrite decide_True by done.
      by rewrite <- !Permutation_middle.
    + rewrite decide_True by done.
      rewrite decide_False by (intros [_ ?]; congruence).
      simpl. by rewrite <- Permutation_middle.
Qed.


End Pipeline.

(** ** The claims about the pipeline *)

Lemma elem_of_fixImports (f : File) (std gen proj : list string) (specs' : list Spec) :
  GenDecl IMPORT specs' ∈ Decls (fixImports f std gen proj) ->
  specs' = importBlock std gen proj.
Proof.
  rewrite fixImports_Decls, list_elem_of_fmap. intros (d & Hd & _).
  destruct (isImportDecl d) eqn:E.
  - rewrite fixDecl_import in Hd by done. congruence.
  - rewrite fixDecl_other in Hd by done. subst d. discriminate.
Qed.



Lemma count_occ_blank (b : bool) (e : string) :
  e <> "" -> count_occ string_dec (if b then [""] else []) e = 0.
Proof.
  intros He. destruct b; [|reflexivity].
  apply count_occ_not_In. intros [H|[]]. by apply He.
Qed.

(** C2: the blank lines of the emitted block are not where the claim puts
    them.  A file with only a general import gets a blank line after its
    last group, and a file with a standard and a project import and no
    general one gets no blank line between the two groups. *)
Theorem C2_blank_lines_misplaced :
  run sampleStd generalOnlyText =
    Some {| TextPkg := "main";
            Chunks := [ImportLines [errorsPath; ""]; OtherDecl printlnMain] |} /\
  run sampleStd stdProjectText =
    Some {| TextPkg := "main";
            Chunks := [ImportLines [fmtPath; helperPath]; OtherDecl printlnMain] |}.
Proof. split; vm_compute; reflexivity. Qed.

(** C3 (amended): extraction keeps every import spec, duplicates included,
    in source order, and each rewritten import declaration holds every
    extracted entry exactly as often as the file wrote it. *)
Theorem C3_entries_kept_as_often_as_written
    (StdPackages : gmap string ()) (f : File) :
  parsed f = true ->
  exists f',
    combineImports f = Some (importStrings f) /\
    revise StdPackages f = Some f' /\
    forall (specs' : list Spec) (e : string),
      GenDecl IMPORT specs' ∈ Decls f' -> e <> "" ->
      count_occ string_dec (specValues specs') e =
      count_occ string_dec (importStrings f) e.
Proof.
  intros Hp. eexists. split; [by apply combineImports_parsed|].
  split; [by apply revise_parsed|].
  intros specs' e Hd He. apply elem_of_fixImports in Hd as ->.
  rewrite specValues_importBlock.
  rewrite <- (proj1 (Permutation_count_occ string_dec _ _)
                   (groups_Permutation StdPackages f) e).
  rewrite !count_occ_app, !count_occ_blank by done. lia.
Qed.

Lemma C3_entries_kept_witness :
  exists f',
    combineImports dupFile = Some (importStrings dupFile) /\
    revise sampleStd dupFile = Some f' /\
    forall (specs' : list Spec) (e : string),
      GenDecl IMPORT specs' ∈ Decls f' -> e <> "" ->
      count_occ string_dec (specValues specs') e =
      count_occ string_dec (importStrings dupFile) e.
Proof. apply (C3_entries_kept_as_often_as_written sampleStd dupFile). reflexivity. Defined.

(** C3 (as stated) fails: a declaration that imports the same path twice
    is rewritten to a block that still lists it twice. *)
Lemma C3_duplicate_counterexample :
  revise sampleStd dupFile =
    Some {| PkgName := "main";
            Decls := [GenDecl IMPORT [importOf fmtPath; importOf fmtPath];
                      printlnMain] |} /\
  ~ NoDup (specValues [importOf fmtPath; importOf fmtPath]).
Proof.
  split; [vm_compute; reflexivity|].
  intros H. apply NoDup_cons_1_1 in H. apply H. simpl. apply list_elem_of_here.
Qed.









(** [fixImports] keeps the package clause, the number and order of the
    declarations, and every declaration that is not an import declaration. *)
Lemma fixImports_frame (f : File) (std gen proj : list string) :
  PkgName (fixImports f std gen proj) = PkgName f /\
  length (Decls (fixImports f std gen proj)) = length (Decls f) /\
  forall (k : nat) (d : Decl),
    Decls f !! k = Some d -> isImportDecl d = false ->
    Decls (fixImports f std gen proj) !! k = Some d.
Proof.
  split; [done|split].
  - rewrite fixImports_Decls. apply length_map.
  - intros k d Hk Hd. rewrite fixImports_Decls, list_lookup_fmap, Hk. simpl.
    by rewrite fixDecl_other.
Qed.

Lemma fixImports_no_import (f : File) (std gen proj : list string) :
  forallb (fun d => negb (isImportDecl d)) (Decls f) = true ->
  fixImports f std gen proj = f.
Proof.
  intros Hno. destruct f as [pkg decls]; unfold fixImports; simpl in *.
  f_equal. induction decls as [|d decls IH]; [done|]. simpl in *.
  apply andb_prop in Hno as [Hd Hno]. apply negb_true_iff in Hd.
  by rewrite fixDecl_other, IH.
Qed.

Lemma combineImports_no_import (f : File) :
  forallb (fun d => negb (isImportDecl d)) (Decls f) = true ->
  combineImports f = Some [].
Proof.
  intros Hno. unfold combineImports. generalize (@nil string).
  induction (Decls f) as [|d decls IH]; intros acc; [done|]. simpl in *.
  apply andb_prop in Hno as [Hd Hno]. apply negb_true_iff in Hd.
  destruct d as [[] ?| |]; try done; by apply IH.
Qed.

(** C7: the rewriting stage changes import declarations only.  On every
    parsed file the pipeline returns a tree with the same package clause,
    the same number of declarations, and every declaration that is not an
    import declaration exactly where and as it was; on a file without import
    declaration the extractor returns the empty list, the groups are empty
    and the tree comes back unchanged. *)
Theorem C7_only_import_declarations_change
    (StdPackages : gmap string ()) (f : File) :
  (parsed f = true ->
   exists f',
     revise StdPackages f = Some f' /\
     PkgName f' = PkgName f /\
     length (Decls f') = length (Decls f) /\
     forall (k : nat) (d : Decl),
       Decls f !! k = Some d -> isImportDecl d = false ->
       Decls f' !! k = Some d) /\
  (forallb (fun d => negb (isImportDecl d)) (Decls f) = true ->
   combineImports f = Some [] /\
   groupImports StdPackages [] = ([], [], []) /\
   fixImports f [] [] [] = f /\
   revise StdPackages f = Some f).
Proof.
  split.
  - intros Hp. eexists. split; [by apply revise_parsed|]. apply fixImports_frame.
  - intros Hno. split; [by apply combineImports_no_import|]. split; [done|].
    split; [by apply fixImports_no_import|].
    unfold revise. rewrite combineImports_no_import by done. simpl.
    by rewrite fixImports_no_import.
Qed.

Lemma C7_only_import_declarations_change_witness :
  (exists f',
     revise sampleStd unusedFile = Some f' /\
     PkgName f' = PkgName unusedFile /\
     length (Decls f') = length (Decls unusedFile) /\
     forall (k : nat) (d : Decl),
       Decls unusedFile !! k = Some d -> isImportDecl d = false ->
       Decls f' !! k = Some d) /\
  (combineImports noImportFile = Some [] /\
   groupImports sampleStd [] = ([], [], []) /\
   fixImports noImportFile [] [] [] = noImportFile /\
   revise sampleStd noImportFile = Some noImportFile).
Proof.
  split.
  - apply (proj1 (C7_only_import_declarations_change sampleStd unusedFile)).
    reflexivity.
  - apply (proj2 (C7_only_import_declarations_change sampleStd noImportFile)).
    reflexivity.
Defined.

(** ** Aliased imports *)



(** With the same alias they compare as their paths do. *)
Lemma alias_order_same (a p1 p2 : string) :
  string_le (a ++ " " ++ p1)%string (a ++ " " ++ p2)%string <-> string_le p1 p2.
Proof.
  induction a as [|c a IH].
  - change ("" ++ " " ++ p1)%string with (String " " p1).
    change ("" ++ " " ++ p2)%string with (String " " p2).
    rewrite string_le_cons. split; [intros [?|[_ ?]]; [lia|done] | by right].
  - change (String c a ++ " " ++ ?p)%string with (String c (a ++ " " ++ p)).
    change (String c a ++ " " ++ p1)%string with (String c (a ++ " " ++ p1)%string).
    change (String c a ++ " " ++ p2)%string with (String c (a ++ " " ++ p2)%string).
    rewrite string_le_cons, IH. split; [intros [?|[_ ?]]; [lia|done] | by right].
Qed.




(** ** Running the pipeline on its own output *)

(** *** Printing the rewritten tree and reading it back *)

Lemma printSpecs_unnamed (specs : list Spec) :
  Forall (fun s => exists v, s = newImportSpec v) specs ->
  printSpecs specs = Some (specValues specs).
Proof.
  induction 1 as [|s specs (v & ->) _ IH]; [done|].
  cbn [printSpecs newImportSpec]. by rewrite IH.
Qed.

Lemma printSpecs_importBlock (std gen proj : list string) :
  printSpecs (importBlock std gen proj) = Some (specValues (importBlock std gen proj)).
Proof.
  apply printSpecs_unnamed, Forall_forall. intros s Hs.
  apply importBlock_unnamed in Hs as (v & -> & _). by exists v.
Qed.

Lemma printDecl_other (d : Decl) :
  isImportDecl d = false -> printDecl d = OtherDecl d.
Proof. by destruct d as [[] ?| |]. Qed.

Lemma printDecl_fixDecl (std gen proj : list string) (d : Decl) :
  printDecl (fixDecl std gen proj d) =
  if isImportDecl d
  then ImportLines (specValues (importBlock std gen proj))
  else OtherDecl d.
Proof.
  destruct (isImportDecl d) eqn:E.
  - rewrite fixDecl_import by done. cbn [printDecl].
    by rewrite printSpecs_importBlock.
  - rewrite fixDecl_other by done. by apply printDecl_other.
Qed.

Lemma rev_app_append (s t u : string) :
  (String.rev_app s t ++ u)%string = String.rev_app s (t ++ u)%string.
Proof. revert t; induction s as [|c s IH]; intros t; [done|]. simpl. by rewrite IH. Qed.

Lemma cutAtBlank_spec (s acc name path : string) :
  cutAtBlank s acc = Some (name, path) ->
  (String.rev acc ++ s)%string = (name ++ " " ++ path)%string.
Proof.
  revert acc; induction s as [|c s IH]; intros acc; [done|].
  cbn [cutAtBlank]. destruct (Ascii.eqb c " ") eqn:E.
  - apply Ascii.eqb_eq in E as ->. by intros [= <- <-].
  - intros H. apply IH in H. rewrite <- H. unfold String.rev. simpl.
    by rewrite !rev_app_append.
Qed.

(** A non-empty line is read as a spec that prints back as that line. *)
Lemma parseLine_spec (line : string) :
  line <> "" ->
  exists i, parseLine line = Some (ImportSpecS i) /\ importSpecStr i = line.
Proof.
  intros Hne. unfold parseLine.
  destruct (String.eqb_spec line "") as [|_]; [done|].
  destruct (cutAtBlank line "") as [[name path]|] eqn:E.
  - eexists. split; [done|]. apply cutAtBlank_spec in E.
    change (importSpecStr _) with (name ++ " " ++ path)%string. by rewrite <- E.
  - eexists. split; done.
Qed.

Lemma parseLine_blank : parseLine "" = None.
Proof. reflexivity. Qed.

Lemma parseLines_spec (lines : list string) :
  forallb isImportSpec (omap parseLine lines) = true /\
  map importSpecStr (declImportSpecs (GenDecl IMPORT (omap parseLine lines))) =
  filter nonBlank lines.
Proof.
  induction lines as [|line lines [IH1 IH2]]; [done|].
  rewrite filter_cons. cbn [omap list_omap]. destruct (decide (nonBlank line)) as [Hn|Hn].
  - destruct (parseLine_spec line Hn) as (i & -> & Hi). simpl in *.
    by rewrite IH1, IH2, Hi.
  - assert (line = "") as -> by (by destruct (decide (line = "")); [|destruct Hn]).
    by rewrite parseLine_blank.
Qed.

Lemma reread_eq (std gen proj : list string) (d : Decl) :
  reread std gen proj d =
  if isImportDecl d
  then GenDecl IMPORT (omap parseLine (specValues (importBlock std gen proj)))
  else d.
Proof. unfold reread. rewrite printDecl_fixDecl. by destruct (isImportDecl d). Qed.

Lemma Decls_reread (f : File) (std gen proj : list string) :
  Decls (parseFile (generateFile (fixImports f std gen proj))) =
  map (reread std gen proj) (Decls f).
Proof.
  unfold parseFile, generateFile; simpl. rewrite !map_map. done.
Qed.

Lemma parsedDecl_reread (std gen proj : list string) (d : Decl) :
  parsedDecl (reread std gen proj d) = true.
Proof.
  rewrite reread_eq. destruct (isImportDecl d) eqn:E.
  - apply parseLines_spec.
  - by destruct d as [[] ?| |].
Qed.

Lemma parsed_reread (f : File) (std gen proj : list string) :
  parsed (parseFile (generateFile (fixImports f std gen proj))) = true.
Proof.
  unfold parsed. rewrite Decls_reread. apply forallb_forall.
  intros d' Hd'. apply in_map_iff in Hd' as (d & <- & _). apply parsedDecl_reread.
Qed.

Lemma fixDecl_reread (std gen proj std' gen' proj' : list string) (d : Decl) :
  fixDecl std' gen' proj' (reread std gen proj d) = fixDecl std' gen' proj' d.
Proof. rewrite reread_eq. by destruct d as [[] ?| |]. Qed.

Lemma fixImports_reread (f : File) (std gen proj std' gen' proj' : list string) :
  fixImports (parseFile (generateFile (fixImports f std gen proj))) std' gen' proj' =
  fixImports f std' gen' proj'.
Proof.
  unfold fixImports at 1 3. rewrite Decls_reread. f_equal.
  rewrite map_map. apply map_ext. intros d. apply fixDecl_reread.
Qed.

Lemma no_import_no_specs (decls : list Decl) :
  countImportDecls decls = 0 -> flat_map declImportSpecs decls = [].
Proof.
  induction decls as [|d decls IH]; [done|]. simpl.
  destruct d as [[] ?| |]; simpl; try done; intros; by rewrite IH.
Qed.

(** With at most one import declaration, reading the printed tree back
    extracts the non-blank lines of the block, once. *)
Lemma strings_reread (std gen proj : list string) (decls : list Decl) :
  countImportDecls decls <= 1 ->
  map importSpecStr (flat_map declImportSpecs (map (reread std gen proj) decls)) =
  match countImportDecls decls with
  | 0 => []
  | _ => filter nonBlank (specValues (importBlock std gen proj))
  end.
Proof.
  induction decls as [|d decls IH]; [done|].
  cbn [countImportDecls map flat_map]. rewrite map_app, reread_eq.
  destruct (isImportDecl d) eqn:E; intros Hc.
  - assert (countImportDecls decls = 0) as H0 by lia.
    rewrite IH, H0 by lia. simpl. rewrite app_nil_r. apply parseLines_spec.
  - rewrite IH by (simpl in Hc; lia). simpl.
    by destruct d as [[] ?| |].
Qed.

Lemma filter_all {A} (P : A -> Prop) `{!forall x, Decision (P x)} (l : list A) :
  Forall P l -> filter P l = l.
Proof.
  induction 1 as [|x l Hx _ IH]; [done|].
  by rewrite filter_cons, decide_True, IH.
Qed.

Lemma filter_none {A} (P : A -> Prop) `{!forall x, Decision (P x)} (l : list A) :
  Forall (fun x => ~ P x) l -> filter P l = [].
Proof.
  induction 1 as [|x l Hx _ IH]; [done|].
  by rewrite filter_cons, decide_False, IH.
Qed.

Lemma nonBlank_Forall (l : list string) : "" ∉ l -> Forall nonBlank l.
Proof. intros H. apply Forall_forall. intros x Hx ->. done. Qed.

Lemma filter_nonBlank_block (std gen proj : list string) :
  "" ∉ std -> "" ∉ gen -> "" ∉ proj ->
  filter nonBlank (specValues (importBlock std gen proj)) = std ++ gen ++ proj.
Proof.
  intros Hs Hg Hp. rewrite specValues_importBlock, !filter_app.
  assert (forall b : bool, filter nonBlank (if b then [""] else []) = []) as Hb.
  { intros []; [|done]. rewrite filter_cons, decide_False; [done|]. by intros []. }
  rewrite !Hb.
  rewrite (filter_all nonBlank std), (filter_all nonBlank gen),
    (filter_all nonBlank proj) by by apply nonBlank_Forall.
  done.
Qed.

Section Rerun.

Variable StdPackages : gmap string ().

Lemma Forall_sort_filter (P : string -> Prop) `{!forall x, Decision (P x)}
    (l : list string) :
  Forall P (sort_Strings (filter P l)).
Proof.
  apply Forall_forall. intros x. rewrite elem_of_sort_Strings, list_elem_of_filter.
  by intros [? _].
Qed.

Lemma isStd_not_others (x : string) :
  isStd StdPackages x -> ~ isGeneral StdPackages x /\ ~ isProject StdPackages x.
Proof. intros [u Hu]. split; intros [? _]; congruence. Qed.

Lemma isGeneral_not_others (x : string) :
  isGeneral StdPackages x -> ~ isStd StdPackages x /\ ~ isProject StdPackages x.
Proof. intros [Hn Hc]. split; [intros [u Hu]|intros [_ ?]]; congruence. Qed.

Lemma isProject_not_others (x : string) :
  isProject StdPackages x -> ~ isStd StdPackages x /\ ~ isGeneral StdPackages x.
Proof. intros [Hn Hc]. split; [intros [u Hu]|intros [_ ?]]; congruence. Qed.

(** Grouping the concatenated groups of a file gives the same groups. *)
Lemma regroup (f : File) :
  let E := stdOf StdPackages f ++ generalOf StdPackages f ++ projectOf StdPackages f in
  sort_Strings (filter (isStd StdPackages) E) = stdOf StdPackages f /\
  sort_Strings (filter (isGeneral StdPackages) E) = generalOf StdPackages f /\
  sort_Strings (filter (isProject StdPackages) E) = projectOf StdPackages f.
Proof.
  intros E. unfold E. rewrite !filter_app.
  pose proof (Forall_sort_filter (isStd StdPackages) (importStrings f)) as Hs.
  pose proof (Forall_sort_filter (isGeneral StdPackages) (importStrings f)) as Hg.
  pose proof (Forall_sort_filter (isProject StdPackages) (importStrings f)) as Hp.
  fold (stdOf StdPackages f) in Hs. fold (generalOf StdPackages f) in Hg.
  fold (projectOf StdPackages f) in Hp.
  rewrite (filter_all (isStd StdPackages) (stdOf StdPackages f)) by done.
  rewrite (filter_all (isGeneral StdPackages) (generalOf StdPackages f)) by done.
  rewrite (filter_all (isProject StdPackages) (projectOf StdPackages f)) by done.
  rewrite (filter_none (isStd StdPackages) (generalOf StdPackages f))
    by (eapply Forall_impl; [exact Hg|]; intros x Hx; apply (isGeneral_not_others x Hx)).
  rewrite (filter_none (isStd StdPackages) (projectOf StdPackages f))
    by (eapply Forall_impl; [exact Hp|]; intros x Hx; apply (isProject_not_others x Hx)).
  rewrite (filter_none (isGeneral StdPackages) (stdOf StdPackages f))
    by (eapply Forall_impl; [exact Hs|]; intros x Hx; apply (isStd_not_others x Hx)).
  rewrite (filter_none (isGeneral StdPackages) (projectOf StdPackages f))
    by (eapply Forall_impl; [exact Hp|]; intros x Hx; apply (isProject_not_others x Hx)).
  rewrite (filter_none (isProject StdPackages) (stdOf StdPackages f))
    by (eapply Forall_impl; [exact Hs|]; intros x Hx; apply (isStd_not_others x Hx)).
  rewrite (filter_none (isProject StdPackages) (generalOf StdPackages f))
    by (eapply Forall_impl; [exact Hg|]; intros x Hx; apply (isGeneral_not_others x Hx)).
  rewrite !app_nil_r. simpl.
  split; [|split]; apply sort_Strings_sorted_id, sort_Strings_Sorted.
Qed.

(** On a file with at most one import declaration, a second run of the
    pipeline on what the first run printed prints the same text again. *)
Lemma single_import_rerun (f f1 : File) :
  parsed f = true -> countImportDecls (Decls f) <= 1 -> "" ∉ importStrings f ->
  revise StdPackages f = Some f1 ->
  run StdPackages (generateFile f1) = Some (generateFile f1).
Proof.
  intros Hp Hc Hb Hr. rewrite revise_parsed in Hr by done. injection Hr as <-.
  set (S := stdOf StdPackages f). set (G := generalOf StdPackages f).
  set (P := projectOf StdPackages f).
  set (f2 := parseFile (generateFile (fixImports f S G P))).
  assert (importStrings f2 = S ++ G ++ P) as HE.
  { unfold importStrings, importSpecsOf, f2. rewrite Decls_reread, strings_reread by done.
    pose proof (groups_Permutation StdPackages f) as HP. fold S G P in HP.
    destruct (countImportDecls (Decls f)) eqn:E0.
    - apply no_import_no_specs in E0. unfold importStrings, importSpecsOf in HP.
      rewrite E0 in HP. simpl in HP. apply Permutation_nil_r in HP. by rewrite HP.
    - apply filter_nonBlank_block; intros H; apply Hb; rewrite <- HP, !elem_of_app; auto. }
  unfold run. fold f2. rewrite revise_parsed by apply parsed_reread.
  unfold stdOf, generalOf, projectOf. rewrite HE.
  destruct (regroup f) as (H1 & H2 & H3). fold S G P in H1, H2, H3.
  rewrite H1, H2, H3. unfold f2. by rewrite fixImports_reread.
Qed.

End Rerun.

(** C8: a second run changes the output of the first when the file has two
    import declarations.  The first run stores the whole block into both
    declarations; the second run extracts every entry twice and stores the
    doubled block into both. *)
Theorem C8_second_run_changes_output :
  run sampleStd twoDeclText = Some twoDeclOnce /\
  run sampleStd twoDeclOnce = Some twoDeclTwice /\
  twoDeclOnce <> twoDeclTwice.
Proof. repeat split; [vm_compute; reflexivity..|discriminate]. Qed.

(** ** The driver *)

Import Cli.

Lemma FsNode_nested_ind (P : FsNode -> Prop) :
  (forall path, P (FsFile path)) ->
  (forall path entries, Forall P entries -> P (FsDir path entries)) ->
  forall node, P node.
Proof.
  intros Hf Hd. fix IH 1. intros [path|path entries].
  - apply Hf.
  - apply Hd. induction entries as [|e es IHes]; constructor; [apply IH|exact IHes].
Qed.

Lemma executed_app (tr1 tr2 : list Event) :
  executed (tr1 ++ tr2) = executed tr1 ++ executed tr2.
Proof. unfold executed. apply omap_app. Qed.

Section Driver.

Variables (env : Env) (fl : Flags) (ignoreDirs : list string) (projectName : string).
Hypothesis Hquiet : quiet env fl.

(** An executor that never ends the process hands the path to
    [reviser.Execute] once when it accepts it, and not at all otherwise. *)
Lemma executor_quiet (path : string) (tr : list Event) :
  exists tr',
    executor env fl ignoreDirs projectName path tr = (Go tt, tr') /\
    executed tr' = executed tr ++ (if accepted ignoreDirs path then [path] else []).
Proof.
  destruct Hquiet as [Herr Hout]. unfold executor, accepted.
  destruct (isIgnore ignoreDirs path); [exists tr; by rewrite app_nil_r|].
  destruct (isFormatFile path); [|exists tr; by rewrite app_nil_r]. simpl.
  unfold bind, history, emit.
  specialize (Herr tr projectName path (localPkgPrefixes fl) (options fl)).
  destruct (Execute env tr projectName path (localPkgPrefixes fl) (options fl))
    as [[formattedOutput hasChange] err]. simpl in Herr. subst err.
  destruct Hout as [-> | ->]; simpl.
  - eexists. split; [done|]. by rewrite !executed_app, app_nil_r.
  - destruct hasChange; simpl; eexists; (split; [done|]);
      by rewrite ?executed_app, ?app_nil_r.
Qed.



End Driver.

(** Without a directory, a run that goes through hands the accepted file
    named by the file-path flag to [reviser.Execute] twice. *)
Lemma main_file_path_twice (env : Env) (fl : Flags) (projectName : string) :
  quiet env fl ->
  shouldShowVersion fl <> Some true ->
  dirPath fl = "" -> filePath fl <> "" ->
  determineProjectName env (projectNameFlag fl) (filePath fl) = Some projectName ->
  accepted (Split (ignoreDir fl) ",") (filePath fl) = true ->
  executed (runMain env fl) = [filePath fl; filePath fl].
Proof.
  intros Hq Hv Hd Hf Hp Ha. unfold runMain, main.
  destruct (shouldShowVersion fl) as [[]|] eqn:Ev; try done;
    (assert (validateRequiredParam (filePath fl) = false) as ->
       by (by apply String.eqb_neq));
    cbn [andb]; rewrite Hp, Hd; cbn [String.eqb negb]; unfold bind;
    (destruct (executor_quiet env fl (Split (ignoreDir fl) ",") projectName Hq
                 (filePath fl) []) as (tr1 & -> & E1));
    (destruct (executor_quiet env fl (Split (ignoreDir fl) ",") projectName Hq
                 (filePath fl) tr1) as (tr2 & -> & E2));
    simpl; by rewrite E2, E1, Ha.
Qed.

(** C9: the file named by the file-path flag is not handed to
    [reviser.Execute] exactly once.  Without a directory the dispatch calls
    the executor on it and the statement after the dispatch calls it again;
    with the directory that contains it, the walk reaches it and the
    statement after the dispatch reaches it a second time; and with the
    ignore-dir flag left empty the executor ignores every path. *)
Theorem C9_file_path_not_executed_once :
  Cli.executed (Cli.runMain sampleEnv oneFileFlags) = ["main.go"; "main.go"] /\
  Cli.executed (Cli.runMain sampleEnv dirFlags) = ["a.go"; "sub/b.go"; "a.go"] /\
  Cli.executed (Cli.runMain sampleEnv defaultIgnoreFlags) = [].
Proof. repeat split; vm_compute; reflexivity. Qed.

(** * Further properties of the pipeline *)

(** X1: The block [fixImports] stores into an import declaration: the standard
    entries, a blank spec when both the standard and the general group are
    non-empty, the general entries, a blank spec whenever the general group
    is non-empty, the project entries; every spec without a name. *)
Theorem importBlock_shape (stdImports generalImports projectImports : list string) :
  importBlock stdImports generalImports projectImports =
  map newImportSpec
    (stdImports
     ++ (if nonEmpty stdImports && nonEmpty generalImports then [""] else [])
     ++ generalImports
     ++ (if nonEmpty generalImports then [""] else [])
     ++ projectImports).
Proof.
  rewrite importBlock_eq, !map_app. unfold blankIf.
  by destruct (nonEmpty stdImports && nonEmpty generalImports),
              (nonEmpty generalImports).
Qed.

Section GroupFacts.

Variable StdPackages : gmap string ().

Lemma filters_Permutation (l : list string) :
  filter (isStd StdPackages) l ++ filter (isProject StdPackages) l
    ++ filter (isGeneral StdPackages) l ≡ₚ l.
Proof.
  induction l as [|x l IH]; [done|].
  etrans; [|apply Permutation_skip, IH].
  rewrite !filter_cons.
  destruct (decide (isStd StdPackages x)) as [Hs|Hs].
  - destruct (isStd_not_others StdPackages x Hs) as [Hg Hp].
    by rewrite decide_False, decide_False.
  - destruct (decide (isProject StdPackages x)) as [Hp|Hp].
    + destruct (isProject_not_others StdPackages x Hp) as [_ Hg].
      rewrite decide_False by done. simpl. by rewrite <- Permutation_middle.
    + rewrite decide_True; [by rewrite <- !Permutation_middle|].
      unfold isStd, isProject, isGeneral in *.
      destruct (StdPackages !! x); [destruct Hs; eauto|].
      destruct (Contains x projectName); [destruct Hp; eauto|done].
Qed.

(** X2: [groupImports] loses nothing and invents nothing: the three groups
    together hold every entry as often as the input does, and no entry is in
    two groups. *)
Theorem groupImports_partition (imports : list string) :
  (groupImports StdPackages imports).1.1
    ++ (groupImports StdPackages imports).1.2
    ++ (groupImports StdPackages imports).2 ≡ₚ imports /\
  forall e : string,
    (e ∈ (groupImports StdPackages imports).1.1 ->
       (e ∉ (groupImports StdPackages imports).1.2) /\
       (e ∉ (groupImports StdPackages imports).2)) /\
    (e ∈ (groupImports StdPackages imports).1.2 ->
       e ∉ (groupImports StdPackages imports).2).
Proof.
  split.
  - rewrite groupImports_eq; simpl. rewrite !sort_Strings_Permutation.
    apply filters_Permutation.
  - intros e. destruct (elem_of_groupImports StdPackages imports e) as (Hs & Hp & Hg).
    rewrite Hs, Hp, Hg. split.
    + intros [_ H]. destruct (isStd_not_others StdPackages e H). tauto.
    + intros [_ H]. destruct (isProject_not_others StdPackages e H). tauto.
Qed.

(** X3: The groups depend on which entries the input holds and how often, not
    on their order. *)
Theorem groupImports_order_insensitive (imports imports' : list string) :
  imports ≡ₚ imports' ->
  groupImports StdPackages imports = groupImports StdPackages imports'.
Proof.
  intros HP. rewrite !groupImports_eq.
  assert (forall (P : string -> Prop) `{!forall x, Decision (P x)},
            sort_Strings (filter P imports) = sort_Strings (filter P imports')) as H.
  { intros P ?. apply sort_Strings_unique; [apply sort_Strings_Sorted|].
    by rewrite sort_Strings_Permutation, HP. }
  by rewrite !H.
Qed.

Lemma regroup_list (l : list string) :
  let S := sort_Strings (filter (isStd StdPackages) l) in
  let G := sort_Strings (filter (isGeneral StdPackages) l) in
  let P := sort_Strings (filter (isProject StdPackages) l) in
  sort_Strings (filter (isStd StdPackages) (S ++ G ++ P)) = S /\
  sort_Strings (filter (isGeneral StdPackages) (S ++ G ++ P)) = G /\
  sort_Strings (filter (isProject StdPackages) (S ++ G ++ P)) = P.
Proof.
  intros S G P. rewrite !filter_app.
  pose proof (Forall_sort_filter (isStd StdPackages) l) as Hs.
  pose proof (Forall_sort_filter (isGeneral StdPackages) l) as Hg.
  pose proof (Forall_sort_filter (isProject StdPackages) l) as Hp.
  fold S in Hs. fold G in Hg. fold P in Hp.
  rewrite (filter_all (isStd StdPackages) S), (filter_all (isGeneral StdPackages) G),
    (filter_all (isProject StdPackages) P) by done.
  rewrite (filter_none (isStd StdPackages) G)
    by (eapply Forall_impl; [exact Hg|]; intros x Hx; apply (isGeneral_not_others _ x Hx)).
  rewrite (filter_none (isStd StdPackages) P)
    by (eapply Forall_impl; [exact Hp|]; intros x Hx; apply (isProject_not_others _ x Hx)).
  rewrite (filter_none (isGeneral StdPackages) S)
    by (eapply Forall_impl; [exact Hs|]; intros x Hx; apply (isStd_not_others _ x Hx)).
  rewrite (filter_none (isGeneral StdPackages) P)
    by (eapply Forall_impl; [exact Hp|]; intros x Hx; apply (isProject_not_others _ x Hx)).
  rewrite (filter_none (isProject StdPackages) S)
    by (eapply Forall_impl; [exact Hs|]; intros x Hx; apply (isStd_not_others _ x Hx)).
  rewrite (filter_none (isProject StdPackages) G)
    by (eapply Forall_impl; [exact Hg|]; intros x Hx; apply (isGeneral_not_others _ x Hx)).
  rewrite !app_nil_r. simpl.
  split; [|split]; apply sort_Strings_sorted_id, sort_Strings_Sorted.
Qed.

(** X4: Grouping is stable on its own result: the groups, concatenated in the
    order the block lists them and grouped again, come back unchanged. *)
Theorem groupImports_regroup (imports : list string) :
  groupImports StdPackages
    ((groupImports StdPackages imports).1.1
     ++ (groupImports StdPackages imports).2
     ++ (groupImports StdPackages imports).1.2) =
  groupImports StdPackages imports.
Proof.
  rewrite (groupImports_eq StdPackages imports); simpl.
  rewrite groupImports_eq.
  destruct (regroup_list imports) as (-> & -> & ->). done.
Qed.

End GroupFacts.

Lemma groupImports_order_insensitive_witness :
  groupImports sampleStd [osPath; fmtPath; errorsPath] =
  groupImports sampleStd [fmtPath; osPath; errorsPath].
Proof. apply (groupImports_order_insensitive sampleStd). apply perm_swap. Defined.




Lemma importSpecStr_block (std gen proj : list string) :
  map importSpecStr (declImportSpecs (GenDecl IMPORT (importBlock std gen proj))) =
  specValues (importBlock std gen proj).
Proof.
  assert (forall specs, Forall (fun s => exists v, s = newImportSpec v) specs ->
            map importSpecStr (declImportSpecs (GenDecl IMPORT specs)) = specValues specs) as H.
  { induction 1 as [|s specs (v & ->) _ IH]; [done|]. simpl in *. by rewrite IH. }
  apply H, Forall_forall. intros s Hs.
  apply importBlock_unnamed in Hs as (v & -> & _). by exists v.
Qed.

(** X6: Whatever tree it is given, [fixImports] returns one on which
    [combineImports] does not panic: it extracts the literals of the block,
    blank ones included, once per import declaration. *)
Theorem combineImports_after_fixImports (f : File) (std gen proj : list string) :
  combineImports (fixImports f std gen proj) =
  Some (concat (replicate (countImportDecls (Decls f))
                  (specValues (importBlock std gen proj)))).
Proof.
  unfold combineImports. rewrite fixImports_Decls, combineDecls_eq.
  assert (forallb parsedDecl (map (fixDecl std gen proj) (Decls f)) = true) as ->.
  { apply forallb_forall. intros d' Hd'. apply in_map_iff in Hd' as (d & <- & _).
    destruct (isImportDecl d) eqn:E.
    - rewrite fixDecl_import by done. simpl. apply forallb_forall. intros s Hs.
      apply list_elem_of_In, importBlock_unnamed in Hs as (v & -> & _). done.
    - rewrite fixDecl_other by done. by destruct d as [[] ?| |]. }
  simpl. f_equal. induction (Decls f) as [|d decls IH]; [done|].
  cbn [map flat_map countImportDecls]. rewrite map_app, IH.
  destruct (isImportDecl d) eqn:E.
  - rewrite fixDecl_import by done. by rewrite importSpecStr_block.
  - rewrite fixDecl_other by done. by destruct d as [[] ?| |].
Qed.

(** X7: On a parsed file with at most one import declaration and no empty
    entry, the pipeline succeeds and what it prints is a fixed point: run on
    that text, it prints the same text. *)
Theorem rerun_single_import_fixed_point
    (StdPackages : gmap string ()) (f : File) :
  parsed f = true -> countImportDecls (Decls f) <= 1 -> "" ∉ importStrings f ->
  exists f1,
    revise StdPackages f = Some f1 /\
    run StdPackages (generateFile f1) = Some (generateFile f1).
Proof.
  intros Hp Hc Hb. eexists. split; [by apply revise_parsed|].
  apply (single_import_rerun StdPackages f); [done..|by apply revise_parsed].
Qed.

Lemma rerun_single_import_fixed_point_witness :
  exists f1,
    revise sampleStd aliasFile = Some f1 /\
    run sampleStd (generateFile f1) = Some (generateFile f1).
Proof.
  apply (rerun_single_import_fixed_point sampleStd aliasFile).
  - reflexivity.
  - vm_compute. lia.
  - vm_compute. intros H.
    repeat (apply elem_of_cons in H as [H|H]; [discriminate H|]).
    by apply elem_of_nil in H.
Defined.

(** * Further properties of the driver *)

(** A property of the trace that every call of the executor keeps is kept
    by the walk and by the whole of [main]. *)
Lemma walk_keeps (I : list Event -> Prop) (exec : string -> M unit) :
  (forall path tr, I tr -> I (exec path tr).2) ->
  forall node tr, I tr -> I (walk (visit exec) node tr).2.
Proof.
  intros Hx. induction node as [path|path entries IH] using FsNode_nested_ind;
    intros tr Htr.
  - by apply Hx.
  - cbn [walk]. unfold bind at 1. cbn [visit ret].
    revert tr Htr. induction IH as [|e es He _ IHes]; intros tr Htr; [done|].
    unfold bind at 1. specialize (He tr Htr).
    destruct (walk (visit exec) e tr) as [[[]|] tr1]; [by apply IHes|done].
Qed.

Lemma load_keeps (I : list Event -> Prop) (env : Env) (exec : string -> M unit)
    (rootPath : string) :
  (forall path tr, I tr -> I (exec path tr).2) ->
  forall tr, I tr -> I (load env rootPath exec tr).2.
Proof.
  intros Hx tr Htr. unfold load. destruct (lstatTree env rootPath); [|done].
  by apply walk_keeps.
Qed.

Lemma main_keeps (I : list Event -> Prop) (env : Env) (fl : Flags) :
  I [] ->
  (forall projectName path tr,
     I tr -> I (executor env fl (Split (ignoreDir fl) ",") projectName path tr).2) ->
  I (runMain env fl).
Proof.
  intros H0 Hx. unfold runMain, main.
  assert (forall pn (m : M unit), I (m []).2 ->
            I ((m ;;; executor env fl (Split (ignoreDir fl) ",") pn (filePath fl)) []).2)
    as Hseq.
  { intros pn m Hm. unfold bind. destruct (m []) as [[[]|] tr1]; [by apply Hx|done]. }
  destruct (shouldShowVersion fl) as [[]|]; try done;
    (destruct (validateRequiredParam (filePath fl) && validateDir env (dirPath fl));
       [done|]);
    (destruct (determineProjectName env (projectNameFlag fl) (filePath fl)) as [pn|];
       [|done]);
    apply Hseq;
    repeat (match goal with |- context [if ?b then _ else _] => destruct b end);
    try (by apply load_keeps; [apply Hx|]); by apply Hx.
Qed.

Lemma executor_trace (env : Env) (fl : Flags) (ignoreDirs : list string)
    (projectName path : string) (tr : list Event) :
  (executor env fl ignoreDirs projectName path tr).2 =
  tr ++ executorEvents env fl ignoreDirs projectName path tr.
Proof.
  unfold executor, executorEvents, accepted.
  destruct (isIgnore ignoreDirs path); [by rewrite app_nil_r|].
  destruct (isFormatFile path); [|by rewrite app_nil_r]. simpl.
  unfold bind, history, emit.
  destruct (Execute env tr projectName path (localPkgPrefixes fl) (options fl))
    as [[formattedOutput hasChange] [err|]]; simpl; [done|].
  destruct (String.eqb (output fl) "stdout"); simpl; [by rewrite <- app_assoc|].
  destruct (String.eqb (output fl) "file"); simpl; [|done].
  destruct hasChange; simpl; [|done]. by rewrite <- !app_assoc.
Qed.

(** X8: Only paths that pass both filters of the executor reach
    [reviser.Execute]: none that holds an ignore entry, none whose extension
    is not [.go]; whatever the collaborators do. *)
Theorem executed_only_accepted (env : Env) (fl : Flags) (path : string) :
  path ∈ executed (runMain env fl) ->
  isIgnore (Split (ignoreDir fl) ",") path = false /\ isFormatFile path = true.
Proof.
  intros Hin.
  assert (Forall (fun p => accepted (Split (ignoreDir fl) ",") p = true)
            (executed (runMain env fl))) as HF.
  { apply (main_keeps (fun tr => Forall (fun p => accepted (Split (ignoreDir fl) ",") p = true)
                                   (executed tr))); [constructor|].
    intros pn p tr Htr. rewrite executor_trace, executed_app.
    apply Forall_app. split; [done|]. unfold executorEvents.
    destruct (accepted (Split (ignoreDir fl) ",") p) eqn:E; [|constructor].
    cbn [executed omap list_omap].
    destruct (Execute env tr pn p (localPkgPrefixes fl) (options fl)) as [[o h] [e|]];
      [by repeat constructor|].
    destruct (String.eqb (output fl) "stdout"); [by repeat constructor|].
    destruct (String.eqb (output fl) "file"); [|by repeat constructor].
    destruct h; by repeat constructor. }
  rewrite Forall_forall in HF. specialize (HF path Hin). unfold accepted in HF.
  apply andb_prop in HF as [H1 H2]. by apply negb_true_iff in H1.
Qed.

Lemma executed_only_accepted_witness :
  isIgnore (Split (ignoreDir dirFlags) ",") "sub/b.go" = false /\
  isFormatFile "sub/b.go" = true.
Proof.
  apply (executed_only_accepted sampleEnv dirFlags "sub/b.go").
  vm_compute. apply list_elem_of_further, list_elem_of_here.
Defined.

(** X9: The driver writes a file only in file mode, only the file it has just
    handed to [reviser.Execute], and only the output [Execute] returned for
    it together with a change and no error. *)
Theorem writes_only_what_Execute_returned
    (env : Env) (fl : Flags) (path content : string) :
  EvWriteFile path content ∈ runMain env fl ->
  output fl = "file" /\
  path ∈ executed (runMain env fl) /\
  exists tr0 projectName,
    Execute env tr0 projectName path (localPkgPrefixes fl) (options fl) =
    (content, true, None).
Proof.
  revert path content.
  apply (main_keeps (fun tr => forall path content,
           EvWriteFile path content ∈ tr ->
           output fl = "file" /\ path ∈ executed tr /\
           exists tr0 projectName,
             Execute env tr0 projectName path (localPkgPrefixes fl) (options fl) =
             (content, true, None))).
  - intros path content H. by apply elem_of_nil in H.
  - intros pn p tr Htr path content. rewrite executor_trace, executed_app, !elem_of_app.
    intros [Hin|Hin].
    { destruct (Htr path content Hin) as (? & ? & ?). auto. }
    unfold executorEvents in *.
    destruct (accepted (Split (ignoreDir fl) ",") p); [|by apply elem_of_nil in Hin].
    destruct (Execute env tr pn p (localPkgPrefixes fl) (options fl))
      as [[o h] [e|]] eqn:EX.
    { apply elem_of_cons in Hin as [?|Hin]; [done|by apply elem_of_nil in Hin]. }
    destruct (String.eqb (output fl) "stdout").
    { repeat (apply elem_of_cons in Hin as [?|Hin]; [done|]). by apply elem_of_nil in Hin. }
    destruct (String.eqb_spec (output fl) "file") as [Hf|_].
    2:{ repeat (apply elem_of_cons in Hin as [?|Hin]; [done|]). by apply elem_of_nil in Hin. }
    destruct h.
    2:{ repeat (apply elem_of_cons in Hin as [?|Hin]; [done|]). by apply elem_of_nil in Hin. }
    apply elem_of_cons in Hin as [?|Hin]; [done|].
    apply elem_of_cons in Hin as [?|Hin]; [done|].
    apply list_elem_of_singleton in Hin. injection Hin as -> ->.
    split; [done|]. split; [right; cbn; apply list_elem_of_here|].
    by exists tr, pn.
Qed.



Lemma writes_only_what_Execute_returned_witness :
  output oneFileFlags = "file" /\
  "main.go" ∈ executed (runMain changingEnv oneFileFlags) /\
  exists tr0 projectName,
    Execute changingEnv tr0 projectName "main.go"
      (localPkgPrefixes oneFileFlags) (options oneFileFlags) =
    ("package main", true, None).
Proof.
  apply (writes_only_what_Execute_returned changingEnv oneFileFlags
           "main.go" "package main").
  vm_compute. do 2 apply list_elem_of_further. apply list_elem_of_here.
Defined.



(** ** The two filters of the executor *)

Lemma prefix_spec (sub s : string) :
  String.prefix sub s = true <-> exists post, s = (sub ++ post)%string.
Proof.
  revert s; induction sub as [|a sub IH]; intros s.
  - split; [intros _; by exists s|intros _; by destruct s].
  - destruct s as [|b s]; simpl.
    + split; [done|intros (post & H); discriminate H].
    + destruct (ascii_dec a b) as [->|Hne].
      * rewrite IH. split; intros (post & H); exists post.
        -- by rewrite H.
        -- by injection H.
      * split; [done|]. intros (post & H). injection H as H1 H2. by destruct Hne.
Qed.

(** [strings.Contains]: the second string occurs somewhere in the first. *)
Lemma Contains_spec (s sub : string) :
  Contains s sub = true <-> exists pre post, s = (pre ++ sub ++ post)%string.
Proof.
  induction s as [|c s IH]; cbn [Contains].
  - rewrite orb_false_r, prefix_spec. split.
    + intros (post & H). by exists "", post.
    + intros (pre & post & H). destruct pre; [by exists post|discriminate H].
  - rewrite orb_true_iff, prefix_spec, IH. split.
    + intros [(post & H)|(pre & post & H)].
      * by exists "", post.
      * exists (String c pre), post. by rewrite H.
    + intros (pre & post & H). destruct pre as [|c' pre].
      * left. by exists post.
      * right. injection H as -> H. by exists pre, post.
Qed.

(** X12: A path is ignored exactly when some entry of the ignore list occurs in
    it as a substring, anywhere: in a directory name, in the file name, or
    across a separator. *)
Theorem isIgnore_substring (ignoreDirs : list string) (path : string) :
  isIgnore ignoreDirs path = true <->
  exists val pre post, val ∈ ignoreDirs /\ path = (pre ++ val ++ post)%string.
Proof.
  induction ignoreDirs as [|v rest IH]; simpl.
  - split; [done|]. intros (val & _ & _ & H & _). by apply elem_of_nil in H.
  - destruct (Contains path v) eqn:E.
    + split; [intros _|done]. apply Contains_spec in E as (pre & post & H).
      exists v, pre, post. split; [apply list_elem_of_here|done].
    + rewrite IH. split.
      * intros (val & pre & post & Hin & H). exists val, pre, post.
        split; [by apply list_elem_of_further|done].
      * intros (val & pre & post & Hin & H).
        apply elem_of_cons in Hin as [->|Hin]; [|by exists val, pre, post].
        assert (Contains path v = true) as E'
          by (apply Contains_spec; by exists pre, post). congruence.
Qed.

Lemma string_app_assoc (a b c : string) :
  ((a ++ b) ++ c)%string = (a ++ b ++ c)%string.
Proof.
  induction a as [|x a IH]; [done|].
  change (String x ((a ++ b) ++ c) = String x (a ++ b ++ c))%string. by rewrite IH.
Qed.

Lemma string_app_nil_r (a : string) : (a ++ "")%string = a.
Proof.
  induction a as [|x a IH]; [done|].
  change (String x (a ++ "") = String x a)%string. by rewrite IH.
Qed.

Lemma rev_app_eq (s t : string) :
  String.rev_app s t = (String.rev s ++ t)%string.
Proof. unfold String.rev. by rewrite rev_app_append. Qed.

Lemma string_rev_cons (c : ascii) (s : string) :
  String.rev (String c s) = (String.rev s ++ String c "")%string.
Proof. unfold String.rev at 1. simpl. apply rev_app_eq. Qed.

Lemma string_rev_app (a b : string) :
  String.rev (a ++ b) = (String.rev b ++ String.rev a)%string.
Proof.
  induction a as [|x a IH].
  - by rewrite string_app_nil_r.
  - change (String x a ++ b)%string with (String x (a ++ b)).
    by rewrite !string_rev_cons, IH, string_app_assoc.
Qed.

Lemma string_rev_involutive (s : string) : String.rev (String.rev s) = s.
Proof.
  induction s as [|x s IH]; [done|].
  by rewrite string_rev_cons, string_rev_app, IH.
Qed.

(** The extension scan, on the reversed path: a non-empty result is the dot
    it stopped at, followed by what it had walked over. *)
Lemma Ext_go_spec (rpath acc e : string) :
  Ext_go rpath acc = e -> e <> "" ->
  exists seen rest,
    rpath = (seen ++ String "." rest)%string /\
    e = String "." (String.rev seen ++ acc)%string.
Proof.
  revert acc; induction rpath as [|c r IH]; intros acc; cbn [Ext_go]; [congruence|].
  destruct (Ascii.eqb_spec c "/") as [->|Hs]; [congruence|].
  destruct (Ascii.eqb_spec c ".") as [->|Hd].
  - intros <- _. by exists "", r.
  - intros He Hne. destruct (IH _ He Hne) as (seen & rest & -> & ->).
    exists (String c seen), rest. split; [done|].
    by rewrite string_rev_cons, string_app_assoc.
Qed.

(** X13: [isFormatFile] accepts exactly the paths that end in [.go]. *)
Theorem isFormatFile_suffix (p : string) :
  isFormatFile p = true <-> exists base, p = (base ++ ".go")%string.
Proof.
  unfold isFormatFile, Ext. split.
  - destruct (String.eqb_spec (Ext_go (String.rev p) "") ".go") as [He|]; [|done].
    intros _. destruct (Ext_go_spec _ _ _ He) as (seen & rest & Hr & Hs); [done|].
    injection Hs as Hs. rewrite string_app_nil_r in Hs.
    assert (seen = "og") as ->.
    { rewrite <- (string_rev_involutive seen), <- Hs. reflexivity. }
    exists (String.rev rest).
    rewrite <- (string_rev_involutive p), Hr.
    change ("og" ++ String "." rest)%string with (String.append "og." rest).
    by rewrite string_rev_app.
  - intros (base & ->). rewrite string_rev_app.
    change (String.rev ".go") with "og.". by simpl.
Qed.

(** ** Whole runs *)






(** X16: A directory that cannot be stat-ed is not refused when a file path is
    given as well: validation passes, the walk function of [load] then
    dereferences the nil file info, and the process ends before the file
    named by the file-path flag is looked at. *)
Theorem unreadable_dir_ends_run
    (env : Env) (fl : Flags) (projectName : string) :
  shouldShowVersion fl <> Some true ->
  filePath fl <> "" -> dirPath fl <> "" ->
  determineProjectName env (projectNameFlag fl) (filePath fl) = Some projectName ->
  lstatTree env (walkRoot (dirPath fl)) = None ->
  main env fl [] = (Halt, []).
Proof.
  intros Hv Hf Hd Hp Ht. unfold main, walkRoot in *.
  assert (validateRequiredParam (filePath fl) = false) as ->
    by (by apply String.eqb_neq).
  cbn [andb]. rewrite Hp.
  destruct (shouldShowVersion fl) as [[]|]; try done;
    (destruct (String.eqb_spec (dirPath fl) "./...") as [E1|E1];
       [unfold bind, load; by rewrite Ht|]);
    (destruct (String.eqb_spec (dirPath fl) "./") as [E2|E2];
       [unfold bind, load; by rewrite Ht|]);
    (destruct (String.eqb_spec (dirPath fl) "") as [E3|E3]; [done|]);
    cbn [negb]; unfold bind, load; by rewrite Ht.
Qed.

Lemma unreadable_dir_ends_run_witness :
  main changingEnv missingDirFlags [] = (Halt, []).
Proof.
  apply (unreadable_dir_ends_run changingEnv missingDirFlags "example.com/proj");
    (discriminate || reflexivity).
Defined.
